(** * The README emitter of e_ai_summarize

    A shallow embedding of [addendum/e_ai_summarize/README.py]: a constant
    template, one call of [str.replace], one [with open(...)] block writing
    the result to [README.md], and one [print].

    Python strings are sequences of Unicode code points, so a [str] is a
    list of code points.  The file is opened in text mode: it holds the
    UTF-8 encoding of what is written, with every line feed stored as the
    line separator of the platform. *)

From Stdlib Require Import NArith ZArith Ascii String Lia.
From Stdlib.Strings Require Import Byte.
From stdpp Require Import base list gmap strings.

Local Open Scope N_scope.
Local Open Scope nat_scope.

(** ** Generic string operations (the Python built-ins the script calls) *)

Module PyStr.
Section Scan.
Context {A : Type} `{EqDecision A}.
Implicit Types s old new pat rest : list A.

(** [s.startswith(pat)] *)
Fixpoint starts_with pat s : bool :=
  match pat, s with
  | [], _ => true
  | _ :: _, [] => false
  | p :: pat', c :: s' => bool_decide (p = c) && starts_with pat' s'
  end.

(** The scanning loop of [s.replace(old, new)] for a non-empty [old]:
    walk the text from the left; where [old] starts, emit [new] and skip
    the rest of the occurrence ([skip] counts the characters still to be
    passed over), otherwise copy one character. *)
Fixpoint replace_scan old new (skip : nat) s : list A :=
  match s with
  | [] => []
  | c :: s' =>
      match skip with
      | S k => replace_scan old new k s'
      | O =>
          if starts_with old s
          then new ++ replace_scan old new (pred (length old)) s'
          else c :: replace_scan old new 0 s'
      end
  end.

(** [s.replace(old, new)].  For the empty [old] Python puts [new] before
    every character and at the end. *)
Definition str_replace old new s : list A :=
  match old with
  | [] => new ++ flat_map (fun c => c :: new) s
  | _ :: _ => replace_scan old new 0 s
  end.

(** The number of non-overlapping occurrences of [old] found by a scan
    from the left (what [s.count(old)] returns for a non-empty [old]). *)
Fixpoint count_scan old (skip : nat) s : nat :=
  match s with
  | [] => 0
  | c :: s' =>
      match skip with
      | S k => count_scan old k s'
      | O =>
          if starts_with old s
          then S (count_scan old (pred (length old)) s')
          else count_scan old 0 s'
      end
  end.

Definition occurrences old s : nat :=
  match old with
  | [] => S (length s)
  | _ :: _ => count_scan old 0 s
  end.

(** [old] occurs somewhere in [s], at any position. *)
Fixpoint contains old s : bool :=
  starts_with old s ||
  match s with
  | [] => false
  | _ :: s' => contains old s'
  end.

(** [sep.join(segs)] *)
Fixpoint join sep (segs : list (list A)) : list A :=
  match segs with
  | [] => []
  | g :: rest =>
      match rest with
      | [] => g
      | _ :: _ => g ++ sep ++ join sep rest
      end
  end.

End Scan.
End PyStr.

Import PyStr.

(** ** Text of the script *)

(** A Python [str]: a sequence of Unicode code points. *)
Abbreviation str := (list N).

(** An ASCII literal as a [str]. *)
Definition u (s : string) : str := N_of_ascii <$> list_ascii_of_string s.

Definition LF : N := 10%N.
Definition backtick : N := 96%N.
Definition dq : str := [34%N].
Definition em_dash : str := [8212%N].

(** The literal assigned to [readme_content] at the top of the script, one
    entry per source line.  The two [\n] escapes inside the literal are
    line feeds in the value ([[LF]]); the double quotes and the dash
    U+2014 are written as [dq] and [em_dash]. *)
Definition template_lines : list str :=
  [ u "# e_ai_summarize";
    [];
    u "e_ai_summarize is a GenAI-powered Rust source code summarizer and crate recreator. It analyzes Rust source files to provide concise, insightful summaries" ++ em_dash ++ u "including key functionality, used crates, safety considerations, and file operations. Additionally, it now supports generating scripts (in Rust or Python) to recreate a crate from a given source folder.";
    [];
    u "---";
    [];
    u "## Features";
    [];
    u "- **Source Code Analysis:**";
    u "  - Summarizes the primary functionality of Rust source code.";
    u "  - Identifies which crates are used within the code.";
    u "  - Assesses code safety with a `SAFE_TO_RUN: YES/NO` verdict and explanation.";
    u "  - Detects file operations and provides a `FILE_OPERATIONS: YES/NO` verdict with details.";
    [];
    u "- **Interactive Follow-up Mode:**";
    u "  - Supports interactive questioning for deeper insights into the code analysis.";
    u "  - Offers a single follow-up question option for quick queries.";
    [];
    u "- **Output Flexibility:**";
    u "  - Choose between streaming and non-streaming output for summarization.";
    [];
    u "- **Crate Recreation:**";
    u "  - **Generate a Python script:** Creates a script that recreates the crate structure from the provided source folder.";
    u "  - **Generate a Rust script:** Creates a Rust script to recreate the crate.";
    u "  - Option to process only the `src` subfolder when recreating the crate.";
    [];
    u "---";
    [];
    u "## Installation";
    [];
    u "Add e_ai_summarize as a dependency in your `Cargo.toml`.";
    [];
    u "---";
    [];
    u "## Usage";
    [];
    u "### Command-Line Interface";
    [];
    u "The tool now offers two main modes: **Summarization** and **Crate Recreation**.";
    [];
    u "#### Summarization Mode";
    [];
    u "- **Summarize a Rust source file:**";
    [];
    u "  {{CODE}}bash";
    u "  cargo run -- path/to/source_file.rs";
    u "  {{CODE}}";
    [];
    u "- **Interactive Follow-up Mode:**";
    [];
    u "  Run in interactive mode to ask follow-up questions after the summary is generated:";
    [];
    u "  {{CODE}}bash";
    u "  cargo run -- path/to/source_file.rs --stdin";
    u "  {{CODE}}";
    [];
    u "- **Single Follow-up Question:**";
    [];
    u "  Provide a single follow-up question with the `-q` option:";
    [];
    u "  {{CODE}}bash";
    u "  cargo run -- path/to/source_file.rs -q " ++ dq ++ u "Does this code handle errors properly?" ++ dq;
    u "  {{CODE}}";
    [];
    u "- **Enable Streaming Mode:**";
    [];
    u "  Use the `--streaming` flag for streaming output:";
    [];
    u "  {{CODE}}bash";
    u "  cargo run -- path/to/source_file.rs --streaming";
    u "  {{CODE}}";
    [];
    u "If no file is specified, e_ai_summarize will default to analyzing its own source code as a demonstration.";
    [];
    u "#### Crate Recreation Mode";
    [];
    u "- **Generate a Rust script to recreate the crate:**";
    [];
    u "  Use the `--recreate-crate-rs` flag. Optionally, provide a source folder (defaults to the current directory) and add `--src-only` to process only the `src` subfolder.";
    [];
    u "  {{CODE}}bash";
    u "  cargo run -- path/to/source_folder --recreate-crate-rs [--src-only]";
    u "  {{CODE}}";
    [];
    u "- **Generate a Python script to recreate the crate:**";
    [];
    u "  Use the `--recreate-crate-py` flag. Similar to the Rust mode, you can specify a source folder and use `--src-only` if needed.";
    [];
    u "  {{CODE}}bash";
    u "  cargo run -- path/to/source_folder --recreate-crate-py [--src-only]";
    u "  {{CODE}}";
    [];
    u "### Programmatic Usage";
    [];
    u "You can also integrate e_ai_summarize into your own Rust projects. For example:";
    [];
    u "{{CODE}}rust";
    u "use e_ai_summarize::summarizer::{self, ChatSession};";
    [];
    u "#[tokio::main]";
    u "async fn main() -> Result<(), Box<dyn std::error::Error>> {";
    u "    // Summarize a source file";
    u "    let (summary, mut session) = summarizer::summarize_source_session(Some(" ++ dq ++ u "path/to/source_file.rs" ++ dq ++ u "), true).await?;";
    u "    println!(" ++ dq ++ u "Summary:" ++ [LF] ++ u "{}" ++ dq ++ u ", summary);";
    [];
    u "    // Optionally, ask a follow-up question";
    u "    let followup = session.ask(" ++ dq ++ u "Can you elaborate on the error handling?" ++ dq ++ u ").await?;";
    u "    println!(" ++ dq ++ u "Follow-up Answer:" ++ [LF] ++ u "{}" ++ dq ++ u ", followup);";
    [];
    u "    Ok(())";
    u "}";
    u "{{CODE}}";
    [];
    u "---";
    [];
    u "## How It Works";
    [];
    u "1. **Parsing Input:**";
    u "   - Reads the provided Rust source file or, if no file is given, defaults to its own source code.";
    u "   - When in crate recreation mode, processes the provided source folder (or defaults to the current directory), optionally limiting to the `src` subfolder.";
    [];
    u "2. **Prompt Construction:**";
    u "   - Constructs a detailed prompt for analyzing the code's main functionality, used crates, safety, file operations, and any limitations.";
    [];
    u "3. **GenAI-Powered Chat Session:**";
    u "   - Leverages a GenAI model (e.g., " ++ dq ++ u "gpt-4o-mini" ++ dq ++ u ") to generate the summary or script, with support for both streaming and non-streaming outputs.";
    [];
    u "4. **Interactive Querying:**";
    u "   - After the initial summary, users can enter interactive mode or ask single follow-up questions for further insights.";
    [];
    u "5. **Crate Recreation:**";
    u "   - Depending on the flags provided, the tool generates either a Python or Rust script that recreates the crate structure.";
    [];
    u "---";
    [];
    u "## Dependencies";
    [];
    u "- **Rust Async Runtime:** Uses [Tokio](https://tokio.rs/) for asynchronous operations.";
    u "- **Command-Line Parsing:** Uses [clap](https://github.com/clap-rs/clap) for handling command-line arguments.";
    u "- **Interactive Input:** Integrates [rustyline](https://github.com/kkawakam/rustyline) for interactive command-line input.";
    u "- **Logging:** Uses [env_logger](https://github.com/env-logger-rs/env_logger) and [log](https://docs.rs/log) for logging.";
    u "- **GenAI Client:** Powered by the GenAI library to perform the actual code analysis.";
    [];
    u "---";
    [];
    u "## Contributing";
    [];
    u "Contributions are welcome! Please feel free to open issues or submit pull requests for enhancements and bug fixes.";
    [];
    u "---";
    [];
    u "## License";
    [];
    u "Distributed under the MIT License. See [LICENSE](LICENSE) for more information.";
    [];
    u "---";
    [];
    u "## Acknowledgements";
    [];
    u "Thanks to the contributors of the GenAI library and the broader Rust community for their continuous support and innovation in open-source projects.";
    [];
    u "Enjoy using e_ai_summarize for all your Rust code analysis and crate recreation needs!";
    [];
    u "*Created by Your David Horner around 3/25*" ].

(** Every line of the literal, the last one too, ends with a line feed. *)
Definition readme_content_template : str :=
  flat_map (fun line => line ++ [LF]) template_lines.

Definition placeholder : str := u "{{CODE}}".
Definition delimiter : str := u "```".

(** [template.replace("{{CODE}}", "```")] *)
Definition render (template : str) : str :=
  str_replace placeholder delimiter template.

(** [readme_content] after the reassignment. *)
Definition readme_content : str := render readme_content_template.

(** ** UTF-8, the encoding the file is opened with *)

Definition byte_of_N (n : N) : byte := byte_of_ascii (ascii_of_N n).

(** The continuation byte holding bits [6k .. 6k+5] of [c]. *)
Definition cont (c : N) (k : N) : byte :=
  byte_of_N (N.lor 128 (N.land (N.shiftr c (6 * k)) 63)).

(** One code point; the strict codec refuses the surrogates. *)
Definition utf8_encode_cp (c : N) : option (list byte) :=
  if (c <? 128)%N then Some [byte_of_N c]
  else if (c <? 2048)%N then
    Some [byte_of_N (N.lor 192 (N.shiftr c 6)); cont c 0]
  else if (c <? 65536)%N then
    if (55296 <=? c)%N && (c <=? 57343)%N then None
    else Some [byte_of_N (N.lor 224 (N.shiftr c 12)); cont c 1; cont c 0]
  else if (c <? 1114112)%N then
    Some [byte_of_N (N.lor 240 (N.shiftr c 18)); cont c 2; cont c 1; cont c 0]
  else None.

Fixpoint utf8_encode (s : str) : option (list byte) :=
  match s with
  | [] => Some []
  | c :: s' =>
      match utf8_encode_cp c, utf8_encode s' with
      | Some b, Some bs => Some (b ++ bs)
      | _, _ => None
      end
  end.

(** A code point the strict codec accepts: below the surrogates, or above
    them and at most U+10FFFF. *)
Definition is_scalar_value (c : N) : bool :=
  (c <? 55296)%N || ((57343 <? c)%N && (c <? 1114112)%N).

(** ** The shape of a rendering, in the words of the specification *)

(** Left to right: at an occurrence of the placeholder the delimiter is
    emitted and the reading resumes behind the occurrence (what was emitted
    is not read again); elsewhere one character is copied. *)
Inductive renders_to : str -> str -> Prop :=
  | renders_nil : renders_to [] []
  | renders_hit t r :
      renders_to t r -> renders_to (placeholder ++ t) (delimiter ++ r)
  | renders_copy c t r :
      (forall rest, c :: t <> placeholder ++ rest) ->
      renders_to t r -> renders_to (c :: t) (c :: r).

(** Some occurrence of the placeholder in [t] comes directly after a
    backtick; [prev] is the character in front of [t]. *)
Fixpoint follows_backtick (prev : option N) (t : str) : bool :=
  match t with
  | [] => false
  | c :: t' =>
      (bool_decide (prev = Some backtick) && starts_with placeholder t)
      || follows_backtick (Some c) t'
  end.

(** ** Files, console and exceptions *)

Inductive errno := EACCES | ENOENT | EISDIR | ENOSPC | EIO.

(** The exceptions the built-ins of the script can raise. *)
Inductive exn :=
  | OSError (e : errno)
  | UnicodeEncodeError
  | ValueError.

Inductive outcome (A : Type) :=
  | Returned (a : A)
  | Raised (x : exn).
Arguments Returned {A} a.
Arguments Raised {A} x.

(** The platforms Python runs on differ, for this script, in
    [os.linesep]: a line feed on POSIX systems, a carriage return and a
    line feed on Windows. *)
Inductive platform := Posix | Windows.

Definition CR : N := 13%N.

Definition linesep (p : platform) : str :=
  match p with
  | Posix => [LF]
  | Windows => [CR; LF]
  end.

(** What the text layer does to the text written to a file that was
    opened without [newline=]: when the line separator [sep] of the
    platform is not a line feed, [text.replace("\n", sep)]. *)
Definition translate_newlines (sep text : str) : str :=
  if bool_decide (sep = [LF]) then text else str_replace [LF] sep text.

(** An open text file: the file it refers to, by its canonical name, and
    the encoded bytes not yet on disk. *)
Record open_file := OpenFile { of_file : string; of_pending : list byte }.

Inductive event :=
  | EvOpen (path : string) (fd : option nat)
  | EvWrite (fd : nat)
  | EvClose (fd : nat).

(** The file system, the open files and the console.  [realpath] gives
    the file a path denotes, by its canonical name: paths that lead to one
    file (["./README.md"], a link, another letter case where the file
    system ignores it) have the same canonical name.  [disk] holds the
    bytes of each file under that name. *)
Record world := World {
  realpath : string -> string;
  disk : gmap string (list byte);
  handles : gmap nat open_file;
  stdout : list string;
  trace : list event
}.

(** What is read under each path. *)
Definition store : Type := string -> option (list byte).

#[export] Instance store_lookup : Lookup string (list byte) store :=
  fun path fs => fs path.

Definition files (w : world) : store :=
  fun path => disk w !! realpath w path.

(** The system of one run: its platform, and what it does to the calls:
    [open] may be refused; a [write] or the flush at [close] may fail
    after a number of bytes reached the disk. *)
Record faults := Faults {
  os : platform;
  open_fault : option errno;
  write_fault : option (errno * nat);
  close_fault : option (errno * nat)
}.

Definition io (A : Type) : Type := faults -> world -> outcome A * world.

#[export] Instance io_ret : MRet io :=
  fun A (a : A) _ w => (Returned a, w).

#[export] Instance io_bind : MBind io :=
  fun A B (k : A -> io B) (m : io A) env w =>
    match m env w with
    | (Returned a, w') => k a env w'
    | (Raised x, w') => (Raised x, w')
    end.

Definition log (ev : event) (w : world) : world :=
  World (realpath w) (disk w) (handles w) (stdout w) (trace w ++ [ev]).

(** [bs] reaches the disk at the end of [file]. *)
Definition flush (file : string) (bs : list byte) (w : world) : world :=
  World (realpath w)
        (<[file := default [] (disk w !! file) ++ bs]> (disk w))
        (handles w) (stdout w) (trace w).

Definition set_handle (fd : nat) (f : option open_file) (w : world) : world :=
  World (realpath w) (disk w)
        (match f with
         | Some f => <[fd := f]> (handles w)
         | None => delete fd (handles w)
         end)
        (stdout w) (trace w).

(** [open(path, "w", encoding="utf-8")]: creates or truncates the file
    that [path] denotes. *)
Definition open_w (path : string) : io nat := fun env w =>
  match open_fault env with
  | Some e => (Raised (OSError e), log (EvOpen path None) w)
  | None =>
      let fd := fresh (dom (handles w)) in
      let file := realpath w path in
      (Returned fd,
       log (EvOpen path (Some fd))
         (World (realpath w)
                (<[file := []]> (disk w))
                (<[fd := OpenFile file []]> (handles w))
                (stdout w) (trace w)))
  end.

(** [file.write(text)]: translates the line feeds, encodes, then buffers;
    the value returned is the number of characters of [text]. *)
Definition file_write (fd : nat) (text : str) : io nat := fun env w =>
  match handles w !! fd with
  | None => (Raised ValueError, w)
  | Some f =>
      match utf8_encode (translate_newlines (linesep (os env)) text) with
      | None => (Raised UnicodeEncodeError, w)
      | Some bytes =>
          let buf := of_pending f ++ bytes in
          match write_fault env with
          | Some (e, n) =>
              (Raised (OSError e),
               log (EvWrite fd)
                 (set_handle fd (Some (OpenFile (of_file f) (drop n buf)))
                    (flush (of_file f) (take n buf) w)))
          | None =>
              (Returned (length text),
               log (EvWrite fd)
                 (set_handle fd (Some (OpenFile (of_file f) buf)) w))
          end
      end
  end.

(** [file.close()]: flushes what is pending and gives the handle back,
    also when the flush fails. *)
Definition file_close (fd : nat) : io unit := fun env w =>
  match handles w !! fd with
  | None => (Returned tt, w)
  | Some f =>
      match close_fault env with
      | Some (e, n) =>
          (Raised (OSError e),
           log (EvClose fd)
             (set_handle fd None (flush (of_file f) (take n (of_pending f)) w)))
      | None =>
          (Returned tt,
           log (EvClose fd)
             (set_handle fd None (flush (of_file f) (of_pending f) w)))
      end
  end.

(** [with open(path, "w", encoding="utf-8") as file: body]: when [open]
    raises, nothing else runs; otherwise the file is closed after the body,
    whether the body returned or raised, and an exception of the close
    replaces the one of the body. *)
Definition with_open {A : Type} (path : string) (body : nat -> io A) : io A :=
  fun env w =>
    match open_w path env w with
    | (Raised x, w1) => (Raised x, w1)
    | (Returned file, w1) =>
        let '(r, w2) := body file env w1 in
        match file_close file env w2 with
        | (Raised x, w3) => (Raised x, w3)
        | (Returned _, w3) => (r, w3)
        end
    end.

(** [print(line)]; the console is taken to accept the line. *)
Definition print (line : string) : io unit := fun _ w =>
  (Returned tt,
   World (realpath w) (disk w) (handles w) (stdout w ++ [line]) (trace w)).

(** ** The script *)

Definition readme_path : string := "README.md".
Definition success_message : string :=
  "README.md has been written successfully.".

(** The [with] block: the operation [write(path, content)]. *)
Definition write (path : string) (content : str) : io nat :=
  with_open path (fun file => file_write file content).

Definition main : io unit :=
  _ ← write readme_path readme_content;
  print success_message.

(** A run in which the operating system refuses nothing. *)
Definition writable (env : faults) : Prop :=
  open_fault env = None /\ write_fault env = None /\ close_fault env = None.

Definition is_open_event (ev : event) : bool :=
  match ev with EvOpen _ _ => true | _ => false end.

Definition is_write_event (ev : event) : bool :=
  match ev with EvWrite _ => true | _ => false end.

(** A system of the platform [p] on which every call succeeds. *)
Definition no_faults_on (p : platform) : faults := Faults p None None None.

Definition no_faults : faults := no_faults_on Posix.

Definition attempts (p : event -> bool) (evs : list event) : nat :=
  length (List.filter p evs).

(** A file system in which a leading ["./"] changes nothing. *)
Definition strip_dot_slash (path : string) : string :=
  match path with
  | String "."%char (String "/"%char rest) => rest
  | _ => path
  end.

(** A world with an older [README.md], another open file and a line
    already on the console. *)
Definition used_world : world :=
  World strip_dot_slash
        {[ readme_path := [x6f; x6c; x64]%byte ]}
        {[ 0 := OpenFile "notes.txt" [x21%byte] ]}
        ["earlier output"%string] [].

(** * Facts about the string operations *)

Module PyStrFacts.
Section Scan.
Context {A : Type} `{EqDecision A}.
Implicit Types s old new pat rest : list A.

Lemma starts_with_cons p pat c s :
  starts_with (p :: pat) (c :: s) = bool_decide (p = c) && starts_with pat s.
Proof. reflexivity. Qed.

Lemma join_cons (sep g g' : list A) (gs : list (list A)) :
  join sep (g :: g' :: gs) = g ++ sep ++ join sep (g' :: gs).
Proof. reflexivity. Qed.

(** *** Equations of the scan *)

Lemma starts_with_app pat rest : starts_with pat (pat ++ rest) = true.
Proof.
  induction pat as [|p pat IH]; simpl; [done|].
  rewrite bool_decide_eq_true_2 by done. exact IH.
Qed.

Lemma starts_with_inv pat s :
  starts_with pat s = true -> s = pat ++ drop (length pat) s.
Proof.
  revert s. induction pat as [|p pat IH]; intros s Hs; simpl in *.
  - by rewrite drop_0.
  - destruct s as [|c s]; [done|].
    apply andb_true_iff in Hs as [Hpc Hs].
    apply bool_decide_eq_true_1 in Hpc. subst c.
    simpl. f_equal. by apply IH.
Qed.

Lemma replace_scan_skip old new k s :
  replace_scan old new k s = replace_scan old new 0 (drop k s).
Proof.
  revert k. induction s as [|c s IH]; intros k.
  - by destruct k.
  - destruct k as [|k]; [done|]. simpl. apply IH.
Qed.

Lemma count_scan_skip old k s :
  count_scan old k s = count_scan old 0 (drop k s).
Proof.
  revert k. induction s as [|c s IH]; intros k.
  - by destruct k.
  - destruct k as [|k]; [done|]. simpl. apply IH.
Qed.

Section NonEmpty.
Variables old new : list A.
Hypothesis old_nonempty : old <> [].


Lemma str_replace_scan s : str_replace old new s = replace_scan old new 0 s.
Proof. unfold str_replace. by destruct old. Qed.

Lemma occurrences_scan s : occurrences old s = count_scan old 0 s.
Proof. unfold occurrences. by destruct old. Qed.

Lemma str_replace_nil : str_replace old new [] = [].
Proof. by rewrite str_replace_scan. Qed.

Lemma occurrences_nil : occurrences old [] = 0.
Proof. by rewrite occurrences_scan. Qed.

Lemma str_replace_hit rest :
  str_replace old new (old ++ rest) = new ++ str_replace old new rest.
Proof.
  rewrite !str_replace_scan.
  destruct old as [|p pat] eqn:E; [done|].
  change ((p :: pat) ++ rest) with (p :: (pat ++ rest)).
  cbn [replace_scan].
  change (p :: (pat ++ rest)) with ((p :: pat) ++ rest).
  rewrite starts_with_app. f_equal.
  rewrite replace_scan_skip. cbn [length pred].
  by rewrite drop_app_length.
Qed.

Lemma occurrences_hit rest :
  occurrences old (old ++ rest) = S (occurrences old rest).
Proof.
  rewrite !occurrences_scan.
  destruct old as [|p pat] eqn:E; [done|].
  change ((p :: pat) ++ rest) with (p :: (pat ++ rest)).
  cbn [count_scan].
  change (p :: (pat ++ rest)) with ((p :: pat) ++ rest).
  rewrite starts_with_app. f_equal.
  rewrite count_scan_skip. cbn [length pred].
  by rewrite drop_app_length.
Qed.

Lemma str_replace_miss c s :
  starts_with old (c :: s) = false ->
  str_replace old new (c :: s) = c :: str_replace old new s.
Proof.
  intros Hm. rewrite !str_replace_scan. cbn [replace_scan]. by rewrite Hm.
Qed.

Lemma occurrences_miss c s :
  starts_with old (c :: s) = false ->
  occurrences old (c :: s) = occurrences old s.
Proof.
  intros Hm. rewrite !occurrences_scan. cbn [count_scan]. by rewrite Hm.
Qed.

(** Induction along the scan: either the text is empty, or it starts
    with [old] and the scan resumes behind it, or its first character
    is copied and the scan resumes at the next one. *)
Lemma scan_ind (P : list A -> Prop) :
  P [] ->
  (forall rest, P rest -> P (old ++ rest)) ->
  (forall c s, starts_with old (c :: s) = false -> P s -> P (c :: s)) ->
  forall s, P s.
Proof.
  intros Hnil Hhit Hmiss s.
  remember (length s) as n eqn:Hn.
  revert s Hn. induction n as [n IH] using lt_wf_ind. intros s Hn.
  destruct s as [|c s]; [exact Hnil|].
  destruct (starts_with old (c :: s)) eqn:Hs.
  - apply starts_with_inv in Hs. rewrite Hs. apply Hhit.
    apply (IH (length (drop (length old) (c :: s)))); [|done].
    rewrite length_drop. subst n.
    destruct old; [done|]. simpl. lia.
  - apply Hmiss; [done|]. apply (IH (length s)); [|done].
    subst n. simpl. lia.
Qed.

(** The length law of [replace]. *)
Lemma str_replace_length s :
  length (str_replace old new s) + occurrences old s * length old
  = length s + occurrences old s * length new.
Proof.
  induction s as [|rest IH|c s Hm IH] using scan_ind.
  - by rewrite str_replace_nil, occurrences_nil.
  - rewrite str_replace_hit, occurrences_hit, !length_app. lia.
  - rewrite str_replace_miss, occurrences_miss by done. simpl. lia.
Qed.

(** Without an occurrence nothing changes. *)
Lemma str_replace_id s :
  occurrences old s = 0 -> str_replace old new s = s.
Proof.
  induction s as [|rest IH|c s Hm IH] using scan_ind; intros H0.
  - apply str_replace_nil.
  - by rewrite occurrences_hit in H0.
  - rewrite occurrences_miss in H0 by done.
    rewrite str_replace_miss by done. f_equal. by apply IH.
Qed.

(** The text is cut at the occurrences into segments; [replace] keeps
    the segments and changes the separator. *)
Lemma str_replace_segments s :
  exists segs : list (list A),
    length segs = S (occurrences old s)
    /\ s = join old segs
    /\ str_replace old new s = join new segs.
Proof.
  induction s as [|rest IH|c s Hm IH] using scan_ind.
  - exists [[]]. by rewrite str_replace_nil, occurrences_nil.
  - destruct IH as (segs & Hlen & Hs & Hr).
    exists ([] :: segs). rewrite str_replace_hit, occurrences_hit.
    destruct segs as [|g gs]; [done|].
    split; [simpl in *; lia|].
    split; rewrite join_cons; cbn [app]; [by rewrite <- Hs | by rewrite Hr].
  - destruct IH as (segs & Hlen & Hs & Hr).
    rewrite str_replace_miss, occurrences_miss by done.
    destruct segs as [|g gs]; [done|].
    exists ((c :: g) :: gs). split; [done|].
    rewrite Hr, Hs at 1. destruct gs; [done|]. by rewrite !join_cons.
Qed.
End NonEmpty.
End Scan.
End PyStrFacts.

Import PyStrFacts.

(** ** Facts about rendering *)

Lemma placeholder_eq :
  placeholder = [123; 123; 67; 79; 68; 69; 125; 125]%N.
Proof. reflexivity. Qed.

Lemma delimiter_eq : delimiter = [backtick; backtick; backtick].
Proof. reflexivity. Qed.

Lemma placeholder_nonempty : placeholder <> [].
Proof. by rewrite placeholder_eq. Qed.

Lemma delimiter_nonempty : delimiter <> [].
Proof. by rewrite delimiter_eq. Qed.

Lemma render_nil : render [] = [].
Proof. apply str_replace_nil, placeholder_nonempty. Qed.

Lemma render_hit rest : render (placeholder ++ rest) = delimiter ++ render rest.
Proof. apply str_replace_hit, placeholder_nonempty. Qed.

Lemma render_miss c s :
  starts_with placeholder (c :: s) = false -> render (c :: s) = c :: render s.
Proof. apply str_replace_miss, placeholder_nonempty. Qed.

Lemma template_ind (P : str -> Prop) :
  P [] ->
  (forall rest, P rest -> P (placeholder ++ rest)) ->
  (forall c s, starts_with placeholder (c :: s) = false -> P s -> P (c :: s)) ->
  forall s, P s.
Proof. apply scan_ind, placeholder_nonempty. Qed.

Lemma placeholder_hit rest :
  occurrences placeholder (placeholder ++ rest)
  = S (occurrences placeholder rest).
Proof. apply occurrences_hit, placeholder_nonempty. Qed.

Lemma placeholder_miss c s :
  starts_with placeholder (c :: s) = false ->
  occurrences placeholder (c :: s) = occurrences placeholder s.
Proof. apply occurrences_miss, placeholder_nonempty. Qed.

Lemma delimiter_hit rest :
  occurrences delimiter (backtick :: backtick :: backtick :: rest)
  = S (occurrences delimiter rest).
Proof. apply (occurrences_hit delimiter delimiter_nonempty rest). Qed.

Lemma delimiter_miss c s :
  starts_with delimiter (c :: s) = false ->
  occurrences delimiter (c :: s) = occurrences delimiter s.
Proof. apply occurrences_miss, delimiter_nonempty. Qed.

Lemma delimiter_other c s :
  c <> backtick -> occurrences delimiter (c :: s) = occurrences delimiter s.
Proof.
  intros Hc. apply delimiter_miss. rewrite delimiter_eq. simpl.
  by rewrite bool_decide_eq_false_2.
Qed.

Lemma renders_to_render t : renders_to t (render t).
Proof.
  induction t as [|rest IH|c s Hm IH] using template_ind.
  - rewrite render_nil. constructor.
  - rewrite render_hit. by constructor.
  - rewrite render_miss by done. constructor; [|done].
    intros rest Heq. rewrite Heq, starts_with_app in Hm. discriminate.
Qed.

Lemma renders_to_unique t r : renders_to t r -> r = render t.
Proof.
  induction 1 as [|t r _ IH|c t r Hm _ IH].
  - by rewrite render_nil.
  - by rewrite render_hit, IH.
  - rewrite render_miss, IH; [done|].
    destruct (starts_with placeholder (c :: t)) eqn:Hs; [|done].
    apply starts_with_inv in Hs. by apply Hm in Hs.
Qed.

(** A text without backticks that starts the rendering starts the
    template as well: rendering only adds backticks. *)
Lemma starts_with_render q s :
  backtick ∉ q -> starts_with q (render s) = true -> starts_with q s = true.
Proof.
  revert q. induction s as [|rest IH|c s Hm IH] using template_ind; intros q Hq.
  - by rewrite render_nil.
  - rewrite render_hit, delimiter_eq. destruct q as [|p q]; [done|].
    simpl. intros [Hp _]%andb_true_iff. apply bool_decide_eq_true_1 in Hp.
    subst p. exfalso. apply Hq. by left.
  - rewrite render_miss by done. destruct q as [|p q]; [done|].
    simpl. intros [Hp Hr]%andb_true_iff. rewrite Hp. simpl.
    apply IH; [|done]. intros Hin. apply Hq. by right.
Qed.

Lemma render_no_placeholder t : occurrences placeholder (render t) = 0.
Proof.
  induction t as [|rest IH|c s Hm IH] using template_ind.
  - by rewrite render_nil.
  - rewrite render_hit, delimiter_eq. cbn [app].
    by rewrite !placeholder_miss.
  - rewrite render_miss by done.
    rewrite placeholder_miss; [done|].
    destruct (starts_with placeholder (c :: render s)) eqn:Hs; [|done].
    rewrite <- Hm. rewrite placeholder_eq, starts_with_cons in *.
    apply andb_true_iff in Hs as [Hc Hs]. rewrite Hc. cbn [andb].
    symmetry. apply starts_with_render; [|done].
    unfold backtick. intros Hin.
    repeat (apply elem_of_cons in Hin as [Hin|Hin]; [discriminate|]).
    by apply elem_of_nil in Hin.
Qed.

(** What [follows_backtick] decides, read on the text itself. *)
Lemma follows_backtick_spec t prev :
  follows_backtick prev t = true
  <-> (prev = Some backtick /\ starts_with placeholder t = true)
      \/ (exists pre post, t = pre ++ backtick :: placeholder ++ post).
Proof.
  revert prev. induction t as [|c t IH]; intros prev.
  - split; [done|]. intros [[_ Hs]|(pre & post & Heq)]; [done|].
    by destruct pre.
  - cbn [follows_backtick]. rewrite orb_true_iff, andb_true_iff, IH.
    rewrite bool_decide_eq_true. split.
    + intros [?|[[[= ->] Hs]|(pre & post & ->)]]; [by left|right..].
      * apply starts_with_inv in Hs. exists [], (drop (length placeholder) t).
        by rewrite Hs at 1.
      * by exists (c :: pre), post.
    + intros [?|(pre & post & Heq)]; [by left|right].
      destruct pre as [|c' pre].
      * assert (c = backtick /\ t = placeholder ++ post) as [-> ->]
          by (cbn [app] in Heq; split; congruence).
        left. split; [done|]. apply starts_with_app.
      * assert (t = pre ++ backtick :: placeholder ++ post) as ->
          by (cbn [app] in Heq; congruence).
        right. by exists pre, post.
Qed.

(** *** Counting delimiters in a rendering *)

Lemma ticks_shift k (x : str) :
  replicate k backtick ++ backtick :: x = replicate (S k) backtick ++ x.
Proof. induction k as [|k IH]; [done|]. simpl. by rewrite IH. Qed.

(** A run of [k] backticks closed by another character holds [k / 3]
    delimiters. *)
Lemma delimiter_run k c x :
  c <> backtick ->
  occurrences delimiter (replicate k backtick ++ c :: x)
  = k / 3 + occurrences delimiter x.
Proof.
  intros Hc. induction k as [k IH] using lt_wf_ind.
  assert (Hcb : bool_decide (backtick = c) = false)
    by (by apply bool_decide_eq_false_2).
  destruct k as [|[|[|k]]].
  - simpl. by apply delimiter_other.
  - cbn [replicate app]. rewrite delimiter_miss.
    + by apply delimiter_other.
    + rewrite delimiter_eq, !starts_with_cons, Hcb. by rewrite andb_false_r.
  - cbn [replicate app]. rewrite 2!delimiter_miss.
    + by apply delimiter_other.
    + rewrite delimiter_eq, !starts_with_cons, Hcb. by rewrite andb_false_r.
    + rewrite delimiter_eq, !starts_with_cons, Hcb.
      by rewrite andb_false_l, !andb_false_r.
  - cbn [replicate app]. rewrite delimiter_hit, IH by lia.
    change (S (S (S k))) with (1 * 3 + k). rewrite Nat.div_add_l by done. lia.
Qed.

Lemma delimiter_skip (pre x : str) :
  Forall (fun c => c <> backtick) pre ->
  occurrences delimiter (pre ++ x) = occurrences delimiter x.
Proof.
  induction 1 as [|c pre Hc _ IH]; [done|].
  cbn [app]. by rewrite delimiter_other.
Qed.

Lemma follows_backtick_app pre prev rest :
  follows_backtick prev (pre ++ rest) = false ->
  follows_backtick (from_option Some prev (last pre)) rest = false.
Proof.
  revert prev. induction pre as [|c pre IH]; intros prev; [done|].
  cbn [app follows_backtick]. intros [_ Hf]%orb_false_iff.
  apply IH in Hf. destruct pre as [|c' pre]; [done|].
  change (last (c :: c' :: pre)) with (last (c' :: pre)).
  destruct (last (c' :: pre)) eqn:E; [done|]. by apply last_None in E.
Qed.

(** The count is kept along the scan, also behind [k] backticks that are
    still waiting to be grouped. *)
Lemma delimiter_count_scan s :
  forall k prev,
    follows_backtick prev s = false ->
    (k <> 0 -> prev = Some backtick) ->
    occurrences delimiter (replicate k backtick ++ render s)
    = occurrences placeholder s
      + occurrences delimiter (replicate k backtick ++ s).
Proof.
  induction s as [|rest IH|c s Hm IH] using template_ind; intros k prev Hf Hk.
  - by rewrite render_nil.
  - assert (Hprev : bool_decide (prev = Some backtick) = false).
    { rewrite placeholder_eq in Hf. cbn [app follows_backtick] in Hf.
      apply orb_false_iff in Hf as [Hf _].
      change (123%N :: 123%N :: 67%N :: 79%N :: 68%N :: 69%N :: 125%N
                :: 125%N :: rest) with (placeholder ++ rest) in Hf.
      rewrite starts_with_app in Hf. by rewrite andb_true_r in Hf. }
    assert (k = 0) as ->.
    { destruct k; [done|]. rewrite Hk in Hprev by done.
      by rewrite bool_decide_eq_true_2 in Hprev. }
    apply follows_backtick_app in Hf.
    specialize (IH 0 _ Hf (fun H => False_ind _ (H eq_refl))).
    cbn [replicate app] in *.
    rewrite render_hit, delimiter_eq. cbn [app].
    rewrite delimiter_hit, IH, placeholder_hit.
    rewrite (delimiter_skip placeholder); [lia|].
    rewrite placeholder_eq. unfold backtick. repeat constructor; discriminate.
  - rewrite render_miss, placeholder_miss by done.
    cbn [follows_backtick] in Hf. apply orb_false_iff in Hf as [_ Hf].
    destruct (decide (c = backtick)) as [->|Hc].
    + rewrite !ticks_shift. by apply (IH (S k) (Some backtick)).
    + rewrite !delimiter_run by done.
      specialize (IH 0 _ Hf (fun H => False_ind _ (H eq_refl))).
      cbn [replicate app] in IH. lia.
Qed.

(** ** Newline translation and the encoder *)

Lemma translate_newlines_posix (text : str) :
  translate_newlines (linesep Posix) text = text.
Proof. reflexivity. Qed.

Lemma translate_newlines_windows (text : str) :
  translate_newlines (linesep Windows) text
  = str_replace [LF] [CR; LF] text.
Proof. reflexivity. Qed.

Lemma str_replace_line_feed (sep : str) (c : N) (s : str) :
  str_replace [LF] sep (c :: s)
  = (if bool_decide (c = LF) then sep else [c]) ++ str_replace [LF] sep s.
Proof.
  case_bool_decide as Hc.
  - subst c. by apply (str_replace_hit [LF] sep).
  - apply (str_replace_miss [LF] sep); [done|].
    cbn [starts_with]. rewrite bool_decide_eq_false_2; [done|].
    by intros <-.
Qed.

Lemma utf8_encode_app (s t : str) :
  utf8_encode (s ++ t)
  = match utf8_encode s, utf8_encode t with
    | Some a, Some b => Some (a ++ b)
    | _, _ => None
    end.
Proof.
  induction s as [|c s IH]; cbn [app utf8_encode].
  - by destruct (utf8_encode t).
  - rewrite IH.
    destruct (utf8_encode_cp c), (utf8_encode s), (utf8_encode t);
      by rewrite ?app_assoc.
Qed.

(** The translation neither removes nor adds a character that the encoder
    refuses. *)
Lemma utf8_encode_translate_newlines (p : platform) (text : str) :
  utf8_encode text = None ->
  utf8_encode (translate_newlines (linesep p) text) = None.
Proof.
  destruct p; [done|]. rewrite translate_newlines_windows.
  induction text as [|c s IH]; [done|].
  rewrite str_replace_line_feed, utf8_encode_app. cbn [utf8_encode].
  case_bool_decide as Hc.
  - subst c. destruct (utf8_encode s); [done|]. intros _. by rewrite IH.
  - cbn [utf8_encode]. destruct (utf8_encode_cp c); [|done].
    destruct (utf8_encode s); [done|]. intros _. by rewrite IH.
Qed.

(** ** Symbolic execution of the input/output calls *)

Lemma fresh_handle (w : world) : handles w !! fresh (dom (handles w)) = None.
Proof. apply not_elem_of_dom, is_fresh. Qed.

Lemma files_lookup (w : world) (path : string) :
  files w !! path = disk w !! realpath w path.
Proof. reflexivity. Qed.

Lemma readme_encodable (p : platform) :
  is_Some (utf8_encode (translate_newlines (linesep p) readme_content)).
Proof.
  destruct (utf8_encode (translate_newlines (linesep p) readme_content))
    eqn:E; [by eexists|].
  destruct p; vm_compute in E; discriminate E.
Qed.

Ltac io_step :=
  rewrite ?files_lookup;
  cbn [realpath disk handles stdout trace of_file of_pending fst snd
       os open_fault write_fault close_fault log flush set_handle];
  rewrite ?lookup_insert_eq, ?insert_insert_eq.

Ltac io_run :=
  unfold main, mbind, io_bind, print, write, with_open, open_w, file_write,
    file_close;
  repeat io_step.

(** Split a run of the script into the cases of what the system does. *)
Ltac script_cases env :=
  let p := fresh "p" in
  let bytes := fresh "bytes" in
  let Henc := fresh "Henc" in
  destruct env as [p [?|] [[? ?]|] [[? ?]|]];
  destruct (readme_encodable p) as [bytes Henc];
  io_run; rewrite ?Henc; repeat io_step.

(** * The claims *)

(** ** Rendering *)

(** C1: rendering replaces the occurrences of the placeholder by the
    delimiter from left to right, without overlap and without reading again
    what it emitted: the result is the one rendering that the rules
    [renders_to] of the specification allow, and the template "a{{CODE}}b"
    renders to "a```b". *)
Theorem render_left_to_right :
  (forall t, renders_to t (render t))
  /\ (forall t r, renders_to t r -> r = render t)
  /\ render (u "a{{CODE}}b") = u "a```b".
Proof.
  split; [exact renders_to_render|].
  split; [exact renders_to_unique|]. reflexivity.
Qed.

(** C2: the length of the rendering is the length of the template plus
    [(len(delimiter) - len(placeholder))] times the number of occurrences
    of the placeholder. *)
Theorem render_length (t : str) :
  Z.of_nat (length (render t))
  = (Z.of_nat (length t)
     + (Z.of_nat (length delimiter) - Z.of_nat (length placeholder))
       * Z.of_nat (occurrences placeholder t))%Z.
Proof.
  pose proof (str_replace_length placeholder delimiter placeholder_nonempty t)
    as H.
  fold (render t) in H. nia.
Qed.

(** C3, as stated, fails: in the template made of a backtick, the
    placeholder and two backticks, the inserted delimiter joins the
    backticks around it, and the rendering holds two delimiters where the
    claim counts one. *)
Lemma delimiter_count_merges :
  occurrences delimiter (render (u "`{{CODE}}``"))
  <> occurrences placeholder (u "`{{CODE}}``")
     + occurrences delimiter (u "`{{CODE}}``").
Proof. vm_compute. discriminate. Qed.

(** C3, amended: when no occurrence of the placeholder comes directly
    after a backtick, the rendering holds as many delimiters as the
    template holds placeholders and delimiters together. *)
Theorem delimiter_count (t : str) :
  follows_backtick None t = false ->
  occurrences delimiter (render t)
  = occurrences placeholder t + occurrences delimiter t.
Proof.
  intros Hf. by apply (delimiter_count_scan t 0 None).
Qed.

(** The template of the script meets the condition: 14 = 14 + 0. *)
Lemma delimiter_count_readme :
  follows_backtick None readme_content_template = false
  /\ occurrences delimiter (render readme_content_template) = 14 + 0
  /\ occurrences delimiter (render readme_content_template)
     = occurrences placeholder readme_content_template
       + occurrences delimiter readme_content_template.
Proof.
  split; [by vm_compute|]. split; [by vm_compute|].
  apply (delimiter_count readme_content_template). by vm_compute.
Defined.

(** C4: a template without the placeholder is rendered unchanged. *)
Theorem render_identity (t : str) :
  occurrences placeholder t = 0 -> render t = t.
Proof. apply str_replace_id, placeholder_nonempty. Qed.

Lemma render_identity_plain :
  occurrences placeholder (u "# plain `text` {CODE}") = 0
  /\ render (u "# plain `text` {CODE}") = u "# plain `text` {CODE}".
Proof.
  split; [by vm_compute|].
  apply (render_identity (u "# plain `text` {CODE}")). by vm_compute.
Defined.

(** C5: with N occurrences of the placeholder the template is N+1
    segments joined by the placeholder and the rendering is the same
    segments joined by the delimiter, so all N occurrences are replaced and
    nothing else changes; no placeholder is left; and every successful run
    of the script, whatever the state it starts from, stores the encoding
    of the same rendering as a text file of its platform, so that two
    successful runs on one platform store the same bytes. *)
Theorem render_deterministic (t : str) :
  (exists segs : list str,
      length segs = S (occurrences placeholder t)
      /\ t = join placeholder segs
      /\ render t = join delimiter segs)
  /\ occurrences placeholder (render t) = 0
  /\ (forall env1 env2 w1 w2,
        fst (main env1 w1) = Returned tt ->
        fst (main env2 w2) = Returned tt ->
        files (snd (main env1 w1)) !! readme_path
        = utf8_encode (translate_newlines (linesep (os env1))
                         (render readme_content_template))
        /\ files (snd (main env2 w2)) !! readme_path
           = utf8_encode (translate_newlines (linesep (os env2))
                            (render readme_content_template))
        /\ (os env1 = os env2 ->
            files (snd (main env1 w1)) !! readme_path
            = files (snd (main env2 w2)) !! readme_path)).
Proof.
  split; [apply str_replace_segments, placeholder_nonempty|].
  split; [apply render_no_placeholder|].
  assert (Hone : forall env w,
             fst (main env w) = Returned tt ->
             files (snd (main env w)) !! readme_path
             = utf8_encode (translate_newlines (linesep (os env))
                              readme_content)).
  { intros env w. script_cases env; clear Henc.
    all: intros Hd; first [discriminate Hd | done]. }
  intros env1 env2 w1 w2 H1 H2.
  rewrite (Hone _ _ H1), (Hone _ _ H2).
  split; [done|]. split; [done|]. by intros ->.
Qed.

(** C10: the template of the script holds 14 placeholders; its rendering
    holds 14 delimiters and no placeholder, at any position. *)
Theorem readme_counts :
  occurrences placeholder readme_content_template = 14
  /\ occurrences delimiter readme_content = 14
  /\ occurrences placeholder readme_content = 0
  /\ contains placeholder readme_content = false.
Proof. by vm_compute. Qed.


(** ** Writing *)

(** C6: the script raises [OSError] exactly when opening the file, the
    write or the flush that completes it at the close fails; nothing else
    is raised; the error is the one the system reported; the file is
    opened once and written at most once, so nothing is tried again; and
    when the run fails the confirmation is not printed. *)
Theorem write_signals_storage_error (env : faults) (w : world) :
  ((exists e, fst (main env w) = Raised (OSError e))
   <-> open_fault env <> None \/ write_fault env <> None
       \/ close_fault env <> None)
  /\ (fst (main env w) = Returned tt
      \/ exists e, fst (main env w) = Raised (OSError e))
  /\ (forall e, fst (main env w) = Raised (OSError e) ->
        open_fault env = Some e
        \/ (exists n, write_fault env = Some (e, n))
        \/ (exists n, close_fault env = Some (e, n)))
  /\ (fst (main env w) <> Returned tt ->
        stdout (snd (main env w)) = stdout w)
  /\ (exists evs,
        trace (snd (main env w)) = trace w ++ evs
        /\ attempts is_open_event evs = 1
        /\ attempts is_write_event evs <= 1).
Proof.
  script_cases env; clear Henc.
  all: split;
    [split;
      [intros [? ?];
        first [discriminate | by left | by right; left | by right; right]
      |intros [?|[?|?]]; first [done | by eexists]]|].
  all: split; [first [by left | right; by eexists]|].
  all: split;
    [intros ? Heq;
      first [discriminate Heq
            |injection Heq as <-;
              first [by left | right; left; by eexists
                    | right; right; by eexists]]|].
  all: split; [intros Hne; first [reflexivity | by destruct Hne]|].
  all: rewrite <- ?app_assoc; eexists; split; [reflexivity|].
  all: unfold attempts;
    cbn [List.filter is_open_event is_write_event length app]; lia.
Qed.

(** C7, as stated, fails where [os.linesep] is not a line feed: the file
    is opened in text mode without [newline=], so on Windows every line
    feed of the rendered document is stored as a carriage return and a
    line feed, and the bytes of the file are not the UTF-8 encoding of the
    rendered document (they are longer). *)
Lemma success_file_differs_on_windows :
  fst (main (no_faults_on Windows) used_world) = Returned tt
  /\ files (snd (main (no_faults_on Windows) used_world))
       !! "README.md"%string
     <> utf8_encode readme_content.
Proof.
  split; [by vm_compute|].
  intros H. apply (f_equal (fmap (M:=option) length)) in H.
  vm_compute in H. discriminate H.
Qed.

(** C7, amended: after a successful run the file [README.md] holds
    exactly the UTF-8 encoding of the whole rendered document in which
    every line feed is written as the line separator of the platform, which
    on POSIX is the UTF-8 encoding of the rendered document itself; and
    exactly one line, the confirmation, was added to the standard
    output. *)
Theorem success_file_and_message (env : faults) (w : world) :
  fst (main env w) = Returned tt ->
  is_Some (utf8_encode (translate_newlines (linesep (os env)) readme_content))
  /\ files (snd (main env w)) !! "README.md"%string
     = utf8_encode (translate_newlines (linesep (os env)) readme_content)
  /\ (os env = Posix ->
      files (snd (main env w)) !! "README.md"%string
      = utf8_encode readme_content)
  /\ stdout (snd (main env w))
     = stdout w ++ ["README.md has been written successfully."%string].
Proof.
  intros Hok. split; [apply readme_encodable|].
  assert (Hfile : files (snd (main env w)) !! "README.md"%string
                  = utf8_encode (translate_newlines (linesep (os env))
                                   readme_content)).
  { revert Hok. script_cases env; clear Henc.
    all: intros Hd; first [discriminate Hd | done]. }
  split; [exact Hfile|]. split.
  - intros Hp. rewrite Hfile, Hp. reflexivity.
  - revert Hok. clear Hfile. script_cases env; clear Henc.
    all: intros Hd; first [discriminate Hd | done].
Qed.

Lemma success_file_and_message_used_world :
  is_Some (utf8_encode (translate_newlines (linesep Posix) readme_content))
  /\ files (snd (main no_faults used_world)) !! "README.md"%string
     = utf8_encode (translate_newlines (linesep Posix) readme_content)
  /\ (Posix = Posix ->
      files (snd (main no_faults used_world)) !! "README.md"%string
      = utf8_encode readme_content)
  /\ stdout (snd (main no_faults used_world))
     = ["earlier output"%string;
        "README.md has been written successfully."%string].
Proof.
  apply (success_file_and_message no_faults used_world).
  vm_compute. reflexivity.
Defined.

(** C8, as stated, fails where [os.linesep] is not a line feed: on
    Windows the file holds, after one run and after two, the rendered
    document with a carriage return before every line feed, not exactly
    the content of the rendering. *)
Lemma overwrite_differs_on_windows :
  writable (no_faults_on Windows)
  /\ (let w1 := snd (main (no_faults_on Windows) used_world) in
      let w2 := snd (main (no_faults_on Windows) w1) in
      fst (main (no_faults_on Windows) used_world) = Returned tt
      /\ fst (main (no_faults_on Windows) w1) = Returned tt
      /\ files w1 !! readme_path <> utf8_encode readme_content
      /\ files w2 !! readme_path <> utf8_encode readme_content).
Proof.
  split; [by repeat split|]. cbn zeta.
  split; [by vm_compute|]. split; [by vm_compute|].
  split; intros H; apply (f_equal (fmap (M:=option) length)) in H;
    vm_compute in H; discriminate H.
Qed.

(** C8, amended: whatever the file held before, one run against a
    writable destination leaves in it exactly the rendered document as a
    text file of the platform (encoded as UTF-8, every line feed written as
    the line separator of the platform), and so does a second run after the
    first: the old content is dropped, nothing is appended, and on one
    platform the second run leaves the bytes of the first, so the file does
    not grow.  On POSIX these bytes are the UTF-8 encoding of the rendered
    document itself. *)
Theorem overwrite_idempotent (w : world) (env1 env2 : faults) :
  writable env1 ->
  writable env2 ->
  let w1 := snd (main env1 w) in
  let w2 := snd (main env2 w1) in
  fst (main env1 w) = Returned tt
  /\ fst (main env2 w1) = Returned tt
  /\ is_Some (utf8_encode
                (translate_newlines (linesep (os env1)) readme_content))
  /\ files w1 !! readme_path
     = utf8_encode (translate_newlines (linesep (os env1)) readme_content)
  /\ files w2 !! readme_path
     = utf8_encode (translate_newlines (linesep (os env2)) readme_content)
  /\ (os env1 = os env2 -> files w2 !! readme_path = files w1 !! readme_path)
  /\ (os env1 = Posix -> os env2 = Posix ->
      files w1 !! readme_path = utf8_encode readme_content
      /\ files w2 !! readme_path = utf8_encode readme_content).
Proof.
  intros (Ho1 & Hw1 & Hc1) (Ho2 & Hw2 & Hc2).
  destruct env1 as [p1 o1 wf1 cf1], env2 as [p2 o2 wf2 cf2].
  cbn [os open_fault write_fault close_fault] in *. subst.
  assert (Hrun : forall p w0,
             fst (main (Faults p None None None) w0) = Returned tt
             /\ files (snd (main (Faults p None None None) w0)) !! readme_path
                = utf8_encode (translate_newlines (linesep p) readme_content)).
  { intros p w0. destruct (readme_encodable p) as [bytes Henc].
    io_run. rewrite !Henc. clear Henc. by repeat io_step. }
  cbn zeta.
  destruct (Hrun p1 w) as [R1 F1].
  destruct (Hrun p2 (snd (main (Faults p1 None None None) w))) as [R2 F2].
  split; [exact R1|]. split; [exact R2|].
  split; [apply readme_encodable|].
  split; [exact F1|]. split; [exact F2|]. split.
  - intros ->. by rewrite F1, F2.
  - intros -> ->. rewrite translate_newlines_posix in F1, F2. by split.
Qed.

Lemma overwrite_idempotent_used_world :
  files used_world !! readme_path = Some [x6f; x6c; x64]%byte
  /\ writable no_faults
  /\ (let w1 := snd (main no_faults used_world) in
      let w2 := snd (main no_faults w1) in
      fst (main no_faults used_world) = Returned tt
      /\ fst (main no_faults w1) = Returned tt
      /\ is_Some (utf8_encode
                    (translate_newlines (linesep Posix) readme_content))
      /\ files w1 !! readme_path
         = utf8_encode (translate_newlines (linesep Posix) readme_content)
      /\ files w2 !! readme_path
         = utf8_encode (translate_newlines (linesep Posix) readme_content)
      /\ (Posix = Posix -> files w2 !! readme_path = files w1 !! readme_path)
      /\ (Posix = Posix -> Posix = Posix ->
          files w1 !! readme_path = utf8_encode readme_content
          /\ files w2 !! readme_path = utf8_encode readme_content)).
Proof.
  split; [by vm_compute|]. split; [by repeat split|].
  apply (overwrite_idempotent used_world no_faults no_faults); repeat split.
Defined.

(** C9: the handle opened by [write] is given back on every path, when
    the body returns and when it raises, for any path and any content: the
    open handles after the call are those before it, and a successful open
    is always answered by the close of the same handle as the last event.
    The same holds for the whole script. *)
Theorem write_releases_handle
    (path : string) (content : str) (env : faults) (w : world) :
  handles (snd (write path content env w)) = handles w
  /\ handles (snd (main env w)) = handles w
  /\ (exists evs,
        trace (snd (write path content env w)) = trace w ++ evs
        /\ (evs = [EvOpen path None]
            \/ exists fd mid,
                 handles w !! fd = None
                 /\ evs = EvOpen path (Some fd) :: mid ++ [EvClose fd])).
Proof.
  pose proof (fresh_handle w) as Hfd.
  split; [|split].
  - destruct env as [p [?|] [[? ?]|] [[? ?]|]]; io_run; try done.
    all: destruct (utf8_encode _); repeat io_step.
    all: by apply delete_insert_id.
  - script_cases env; clear Henc; try done.
    all: by apply delete_insert_id.
  - destruct env as [p [?|] [[? ?]|] [[? ?]|]]; io_run.
    all: try (eexists; split; [reflexivity|]; by left).
    all: destruct (utf8_encode _); repeat io_step.
    all: rewrite <- ?app_assoc; eexists; split; [reflexivity|].
    all: right; exists (fresh (dom (handles w))).
    all: first [by exists [EvWrite (fresh (dom (handles w)))] | by exists []].
Qed.


(** * Further properties of the script *)

(** ** The scan, for any pattern *)

Section Separators.
Context {A : Type} `{EqDecision A}.
Implicit Types s old new a t : list A.

Lemma starts_with_separator old c a t :
  c ∉ old -> starts_with old (a ++ c :: t) = starts_with old a.
Proof.
  revert a. induction old as [|p old IH]; intros a Hc; [done|].
  apply not_elem_of_cons in Hc as [Hpc Hc].
  destruct a as [|x a]; cbn [app].
  - rewrite starts_with_cons. rewrite bool_decide_eq_false_2; [done|].
    by intros ->.
  - rewrite !starts_with_cons. by rewrite IH.
Qed.

Lemma str_replace_separator old new c a t :
  old <> [] -> c ∉ old ->
  str_replace old new (a ++ c :: t)
  = str_replace old new a ++ c :: str_replace old new t.
Proof.
  intros Hne Hc.
  induction a as [|rest IH|x s Hm IH] using (scan_ind old Hne).
  - rewrite str_replace_nil by done. cbn [app].
    apply str_replace_miss; [done|].
    pose proof (starts_with_separator old c [] t Hc) as Hs.
    cbn [app] in Hs. rewrite Hs. by destruct old.
  - rewrite <- app_assoc, !str_replace_hit, IH by done.
    by rewrite app_assoc.
  - cbn [app]. rewrite !str_replace_miss, IH; [done..|].
    change (x :: s ++ c :: t) with ((x :: s) ++ c :: t).
    by rewrite starts_with_separator.
Qed.

Lemma occurrences_separator old c a t :
  old <> [] -> c ∉ old ->
  occurrences old (a ++ c :: t) = occurrences old a + occurrences old t.
Proof.
  intros Hne Hc.
  induction a as [|rest IH|x s Hm IH] using (scan_ind old Hne).
  - rewrite occurrences_nil by done. cbn [app].
    apply occurrences_miss; [done|].
    pose proof (starts_with_separator old c [] t Hc) as Hs.
    cbn [app] in Hs. rewrite Hs. by destruct old.
  - rewrite <- app_assoc, !occurrences_hit, IH by done. lia.
  - cbn [app]. rewrite !occurrences_miss, IH; [done..|].
    change (x :: s ++ c :: t) with ((x :: s) ++ c :: t).
    by rewrite starts_with_separator.
Qed.

(** The scan overlooks nothing: it counts no occurrence exactly when the
    pattern starts at no position of the text. *)
Lemma occurrences_zero_contains old s :
  old <> [] -> occurrences old s = 0 <-> contains old s = false.
Proof.
  intros Hne.
  induction s as [|rest IH|x s Hm IH] using (scan_ind old Hne).
  - rewrite occurrences_nil by done. cbn [contains].
    destruct old; [done|]. by cbn.
  - rewrite occurrences_hit by done.
    destruct old as [|p old]; [done|]. cbn [app contains].
    change (p :: old ++ rest) with ((p :: old) ++ rest).
    by rewrite starts_with_app.
  - rewrite occurrences_miss by done. cbn [contains]. by rewrite Hm.
Qed.

End Separators.

(** ** Rendering *)

(** X1: rendering a rendering changes nothing: the second [replace] finds
    no placeholder. *)
Theorem render_idempotent (t : str) : render (render t) = render t.
Proof.
  apply str_replace_id; [apply placeholder_nonempty|].
  apply render_no_placeholder.
Qed.

(** X2: a character that does not occur in the placeholder cuts the text
    in two parts that are rendered, and counted, on their own. *)
Theorem render_separator (c : N) (a t : str) :
  c ∉ placeholder ->
  render (a ++ c :: t) = render a ++ c :: render t
  /\ occurrences placeholder (a ++ c :: t)
     = occurrences placeholder a + occurrences placeholder t.
Proof.
  intros Hc. split.
  - by apply str_replace_separator; [apply placeholder_nonempty|].
  - by apply occurrences_separator; [apply placeholder_nonempty|].
Qed.

Lemma line_feed_not_in_placeholder : LF ∉ placeholder.
Proof.
  rewrite placeholder_eq. unfold LF. intros Hin.
  repeat (apply elem_of_cons in Hin as [Hin|Hin]; [discriminate|]).
  by apply elem_of_nil in Hin.
Qed.

Lemma render_separator_two_lines :
  (LF ∉ placeholder)
  /\ render (u "x{{CODE}}" ++ LF :: u "{{CODE}}y")
     = render (u "x{{CODE}}") ++ LF :: render (u "{{CODE}}y")
  /\ occurrences placeholder (u "x{{CODE}}" ++ LF :: u "{{CODE}}y")
     = occurrences placeholder (u "x{{CODE}}")
       + occurrences placeholder (u "{{CODE}}y").
Proof.
  split; [exact line_feed_not_in_placeholder|].
  apply (render_separator LF (u "x{{CODE}}") (u "{{CODE}}y")).
  exact line_feed_not_in_placeholder.
Defined.

(** X3: a text made of lines, each closed by a line feed, is rendered line
    by line. *)
Theorem render_by_lines (lines : list str) :
  render (flat_map (fun line => line ++ [LF]) lines)
  = flat_map (fun line => render line ++ [LF]) lines.
Proof.
  induction lines as [|l lines IH]; [apply render_nil|].
  cbn [flat_map]. rewrite <- !app_assoc. cbn [app].
  unfold render in *.
  rewrite str_replace_separator, IH;
    [done|apply placeholder_nonempty|apply line_feed_not_in_placeholder].
Qed.

(** X4: whatever the template, the placeholder starts at no position of
    the rendering. *)
Theorem render_clears_placeholder (t : str) :
  contains placeholder (render t) = false.
Proof.
  apply occurrences_zero_contains; [apply placeholder_nonempty|].
  apply render_no_placeholder.
Qed.

(** ** Encoding *)

Lemma utf8_encode_cp_defined (c : N) :
  is_Some (utf8_encode_cp c) <-> is_scalar_value c = true.
Proof.
  unfold utf8_encode_cp, is_scalar_value.
  destruct (N.ltb_spec c 128), (N.ltb_spec c 2048), (N.ltb_spec c 65536),
    (N.ltb_spec c 1114112), (N.ltb_spec c 55296), (N.ltb_spec 57343 c),
    (N.leb_spec 55296 c), (N.leb_spec c 57343);
    cbn [orb andb]; try lia; split; try done; intros [? ?]; done.
Qed.

Lemma utf8_encode_cp_length (c : N) (bs : list byte) :
  utf8_encode_cp c = Some bs -> 1 <= length bs <= 4.
Proof.
  unfold utf8_encode_cp.
  repeat (case_match; try discriminate); intros [= <-]; cbn; lia.
Qed.

(** X5: the text can be encoded, so [file.write] does not raise
    [UnicodeEncodeError], exactly when it holds no surrogate and nothing
    above U+10FFFF. *)
Theorem utf8_encode_defined (s : str) :
  is_Some (utf8_encode s) <-> Forall (fun c => is_scalar_value c = true) s.
Proof.
  induction s as [|c s IH]; cbn [utf8_encode].
  - split; [constructor|by eexists].
  - rewrite Forall_cons, <- IH, <- utf8_encode_cp_defined.
    destruct (utf8_encode_cp c), (utf8_encode s); split.
    all: first [by intros [? ?] | intros [[? ?] [? ?]]; done
               | by intros; split; eexists | by eexists].
Qed.

(** X6: every character takes one to four bytes. *)
Theorem utf8_encode_length (s : str) (bs : list byte) :
  utf8_encode s = Some bs -> length s <= length bs <= 4 * length s.
Proof.
  revert bs. induction s as [|c s IH]; intros bs; cbn [utf8_encode].
  - intros [= <-]. cbn. lia.
  - destruct (utf8_encode_cp c) as [b|] eqn:Hc; [|done].
    destruct (utf8_encode s) as [bs'|]; [|done]. intros [= <-].
    apply utf8_encode_cp_length in Hc. specialize (IH bs' eq_refl).
    rewrite length_app. cbn [length]. lia.
Qed.

Lemma utf8_encode_length_dash :
  utf8_encode (u "a" ++ em_dash) = Some [x61; xe2; x80; x94]%byte
  /\ length (u "a" ++ em_dash) <= length [x61; xe2; x80; x94]%byte
     <= 4 * length (u "a" ++ em_dash).
Proof.
  split; [reflexivity|].
  apply (utf8_encode_length (u "a" ++ em_dash)). reflexivity.
Defined.

(** ** Writing *)

(** X7: [write] touches one file only: every path that denotes another
    file than the one opened reads what it read before; a path that
    denotes the file opened, under whatever name, reads what the path
    opened reads; and nothing is printed. *)
Theorem write_leaves_other_files
    (path p : string) (content : str) (env : faults) (w : world) :
  (realpath w p <> realpath w path ->
   files (snd (write path content env w)) !! p = files w !! p)
  /\ (realpath w p = realpath w path ->
      files (snd (write path content env w)) !! p
      = files (snd (write path content env w)) !! path)
  /\ stdout (snd (write path content env w)) = stdout w.
Proof.
  split; [|split].
  - intros Hp.
    destruct env as [q [?|] [[? ?]|] [[? ?]|]]; io_run; try done.
    all: destruct (utf8_encode _); repeat io_step.
    all: by rewrite ?lookup_insert_ne.
  - intros Hp.
    destruct env as [q [?|] [[? ?]|] [[? ?]|]]; io_run.
    all: try destruct (utf8_encode _); repeat io_step.
    all: by rewrite Hp; repeat io_step.
  - destruct env as [q [?|] [[? ?]|] [[? ?]|]]; io_run; try done.
    all: by destruct (utf8_encode _); repeat io_step.
Qed.

Lemma write_leaves_other_files_notes :
  files (snd (write readme_path (u "abc") no_faults used_world))
    !! "notes.txt"%string
  = files used_world !! "notes.txt"%string
  /\ files (snd (write readme_path (u "abc") no_faults used_world))
       !! "./README.md"%string
     = files (snd (write readme_path (u "abc") no_faults used_world))
         !! readme_path
  /\ stdout (snd (write readme_path (u "abc") no_faults used_world))
     = stdout used_world.
Proof.
  destruct (write_leaves_other_files readme_path "notes.txt" (u "abc")
              no_faults used_world) as (Hother & _ & Hout).
  destruct (write_leaves_other_files readme_path "./README.md" (u "abc")
              no_faults used_world) as (_ & Halias & _).
  split; [apply Hother; vm_compute; discriminate|].
  split; [apply Halias; reflexivity|exact Hout].
Defined.

(** X8: when the file cannot be opened the script raises the error of
    [open] and leaves every file, the old [README.md] too, and the console
    as they were. *)
Theorem open_failure_keeps_files (e : errno) (env : faults) (w : world) :
  open_fault env = Some e ->
  fst (main env w) = Raised (OSError e)
  /\ files (snd (main env w)) = files w
  /\ stdout (snd (main env w)) = stdout w.
Proof.
  destruct env as [p o wf cf]. cbn [open_fault]. intros ->. by io_run.
Qed.

Lemma open_failure_keeps_files_denied :
  open_fault (Faults Posix (Some EACCES) None None) = Some EACCES
  /\ fst (main (Faults Posix (Some EACCES) None None) used_world)
     = Raised (OSError EACCES)
  /\ files (snd (main (Faults Posix (Some EACCES) None None) used_world))
     = files used_world
  /\ stdout (snd (main (Faults Posix (Some EACCES) None None) used_world))
     = stdout used_world.
Proof.
  split; [reflexivity|].
  apply (open_failure_keeps_files EACCES
           (Faults Posix (Some EACCES) None None) used_world).
  reflexivity.
Defined.

(** X9: once the file is open it holds, whatever fails afterwards, the
    first bytes of the encoding of the content as a text file of the
    platform, and nothing of what it held before. *)
Theorem write_leaves_prefix
    (path : string) (content : str) (bytes : list byte)
    (env : faults) (w : world) :
  utf8_encode (translate_newlines (linesep (os env)) content) = Some bytes ->
  open_fault env = None ->
  exists n, files (snd (write path content env w)) !! path
            = Some (take n bytes).
Proof.
  destruct env as [p o [[e1 n1]|] [[e2 n2]|]];
    cbn [os open_fault]; intros Henc ->; io_run; rewrite Henc;
    repeat io_step.
  all: cbn [default from_option id app].
  - exists (n1 + n2). by rewrite take_take_drop.
  - exists (length bytes). by rewrite take_drop, take_ge.
  - by exists n2.
  - exists (length bytes). by rewrite take_ge.
Qed.

Lemma write_leaves_prefix_disk_full :
  utf8_encode (translate_newlines
                 (linesep (os (Faults Windows None (Some (ENOSPC, 2))
                                 (Some (ENOSPC, 1)))))
                 (u "ab" ++ LF :: u "cd"))
  = Some [x61; x62; x0d; x0a; x63; x64]%byte
  /\ open_fault (Faults Windows None (Some (ENOSPC, 2)) (Some (ENOSPC, 1)))
     = None
  /\ exists n,
       files (snd (write readme_path (u "ab" ++ LF :: u "cd")
                     (Faults Windows None (Some (ENOSPC, 2))
                        (Some (ENOSPC, 1)))
                     used_world)) !! readme_path
       = Some (take n [x61; x62; x0d; x0a; x63; x64]%byte).
Proof.
  split; [reflexivity|]. split; [reflexivity|].
  apply (write_leaves_prefix readme_path (u "ab" ++ LF :: u "cd"));
    reflexivity.
Defined.

(** X10: a text that cannot be encoded makes [write] raise
    [UnicodeEncodeError] after the file was truncated: the file is left
    empty, and the handle is given back. *)
Theorem write_unencodable
    (path : string) (content : str) (env : faults) (w : world) :
  utf8_encode content = None ->
  open_fault env = None ->
  close_fault env = None ->
  fst (write path content env w) = Raised UnicodeEncodeError
  /\ files (snd (write path content env w)) !! path = Some []
  /\ handles (snd (write path content env w)) = handles w.
Proof.
  intros Henc. pose proof (fresh_handle w) as Hfd.
  destruct env as [p o wf cf]; cbn [open_fault close_fault]; intros -> ->.
  apply (utf8_encode_translate_newlines p) in Henc.
  io_run. rewrite Henc. repeat io_step. cbn [default from_option id app].
  split; [done|]. split; [done|]. by apply delete_insert_id.
Qed.

Lemma write_unencodable_surrogate :
  utf8_encode [97; 55296]%N = None
  /\ open_fault no_faults = None
  /\ close_fault no_faults = None
  /\ fst (write readme_path [97; 55296]%N no_faults used_world)
     = Raised UnicodeEncodeError
  /\ files (snd (write readme_path [97; 55296]%N no_faults used_world))
       !! readme_path = Some []
  /\ handles (snd (write readme_path [97; 55296]%N no_faults used_world))
     = handles used_world.
Proof.
  split; [reflexivity|]. split; [reflexivity|]. split; [reflexivity|].
  apply (write_unencodable readme_path [97; 55296]%N no_faults used_world);
    reflexivity.
Defined.

(** X11: for any path and any text, a [write] that meets no fault
    returns the number of characters of the text, line feeds counted once
    whatever the platform writes for them, and leaves in the file exactly
    the UTF-8 encoding of the text with every line feed written as the line
    separator of the platform. *)
Theorem write_stores_encoding
    (path : string) (content : str) (bytes : list byte)
    (env : faults) (w : world) :
  utf8_encode (translate_newlines (linesep (os env)) content) = Some bytes ->
  writable env ->
  fst (write path content env w) = Returned (length content)
  /\ files (snd (write path content env w)) !! path = Some bytes.
Proof.
  intros Henc (Ho & Hw & Hc). destruct env as [p o wf cf].
  cbn [os open_fault write_fault close_fault] in *. subst.
  io_run. rewrite Henc. by repeat io_step.
Qed.

Lemma write_stores_encoding_dash :
  utf8_encode (translate_newlines (linesep (os (no_faults_on Windows)))
                 (u "a" ++ LF :: em_dash))
  = Some [x61; x0d; x0a; xe2; x80; x94]%byte
  /\ writable (no_faults_on Windows)
  /\ fst (write "out.txt" (u "a" ++ LF :: em_dash) (no_faults_on Windows)
            used_world)
     = Returned 3
  /\ files (snd (write "out.txt" (u "a" ++ LF :: em_dash)
                   (no_faults_on Windows) used_world))
       !! "out.txt"%string
     = Some [x61; x0d; x0a; xe2; x80; x94]%byte.
Proof.
  split; [reflexivity|]. split; [by repeat split|].
  apply (write_stores_encoding "out.txt" (u "a" ++ LF :: em_dash)
           [x61; x0d; x0a; xe2; x80; x94]%byte (no_faults_on Windows)
           used_world);
    [reflexivity|by repeat split].
Defined.
